(** * A 3-D voxel image and the maximum scan of [main_file.cpp]

    The program of [main_file.cpp] creates a 10x10x10 image of unsigned
    16-bit samples, fills it with zero, stores six voxel values and walks
    the whole image to find its largest sample.  The image class
    ([MyImage3D.h]) is not among the sources; it is modelled here from the
    specification of the container, and the scan is the one [main] runs. *)

From Stdlib Require Import ZArith Lia.
From Stdlib Require DecimalString DecimalZ DecimalPos.
From stdpp Require Import base list strings.

Local Open Scope Z_scope.

(** ** Results of an operation *)

(** The three failures the container reports. *)
Inductive error : Type :=
  | InvalidDimension
  | OutOfBounds
  | EmptyVolume.

(** What a call gives back: a value, one of the failures, or nothing
    defined at all (a sample was read that no fill or write populated). *)
Inductive outcome (A : Type) : Type :=
  | Ok (a : A)
  | Fail (e : error)
  | Undefined.

Arguments Ok {A} a.
Arguments Fail {A} e.
Arguments Undefined {A}.

(** Conversion to [unsigned short]: the value modulo 2^16. *)
Definition to_ushort (z : Z) : Z := z mod 65536.

(** ** The image class *)

Module MyImage3D.

(** Modelled from the spec: the storage of [MyImage3D.h] (missing from the
    sources).  Three extents and a dense buffer with one sample per grid
    cell; a sample is [None] until a fill or a write populates it. *)
Record image : Type := mk_image {
  depth : Z;
  rows : Z;
  cols : Z;
  samples : list (option Z)
}.

(** Modelled from the spec: the object [MyImage3D image3d] of
    [MyImage3D.h] (missing).  [None] is the image no dimensions were ever
    set for. *)
Definition t : Type := option image.

(** A computation on the image: it reads and updates the object and gives
    an outcome. *)
Definition M (A : Type) : Type := t -> outcome A * t.

#[export] Instance M_ret : MRet M := fun A a vol => (Ok a, vol).

(** Sequencing stops at the first call that does not give a value. *)
#[export] Instance M_bind : MBind M := fun A B f m vol =>
  match m vol with
  | (Ok a, vol') => f a vol'
  | (Fail e, vol') => (Fail e, vol')
  | (Undefined, vol') => (Undefined, vol')
  end.

(** A call that fails and leaves the object as it was. *)
Definition throw {A : Type} (e : error) : M A := fun vol => (Fail e, vol).

(** Modelled from the spec: the validity invariant of a coordinate triple,
    0 <= s < depth, 0 <= r < rows, 0 <= c < columns. *)
Definition valid (img : image) (s r c : Z) : bool :=
  (0 <=? s) && (s <? depth img) &&
  (0 <=? r) && (r <? rows img) &&
  (0 <=? c) && (c <? cols img).

(** Modelled from the spec: the place of cell (s, r, c) in the dense
    buffer of [MyImage3D.h] (missing), columns running fastest. *)
Definition offset (img : image) (s r c : Z) : Z :=
  (s * rows img + r) * cols img + c.

(** Modelled from the spec: [MyImage3D::Set] of [MyImage3D.h] (missing),
    the spec's allocate(depth, rows, cols).  All three arguments must be
    positive; the result has depth x rows x cols undefined samples and
    replaces what was there.  Otherwise [InvalidDimension], and the object
    stays as it was. *)
Definition Set_ (d r c : Z) : M unit := fun vol =>
  if (0 <? d) && (0 <? r) && (0 <? c)
  then (Ok tt, Some (mk_image d r c (replicate (Z.to_nat (d * r * c)) None)))
  else (Fail InvalidDimension, vol).

(** Modelled from the spec: [MyImage3D::FillInWith] of [MyImage3D.h]
    (missing), the spec's fill(value).  The image must be allocated
    ([EmptyVolume] otherwise); every sample is set to the value, converted
    to the sample type. *)
Definition FillInWith (v : Z) : M unit := fun vol =>
  match vol with
  | None => (Fail EmptyVolume, vol)
  | Some img =>
      (Ok tt,
       Some (mk_image (depth img) (rows img) (cols img)
               (fmap (fun _ => Some (to_ushort v)) (samples img))))
  end.

(** Modelled from the spec: reading through the accessor as section 4.1
    specifies it, at(s, r, c) with the bounds check the spec requires:
    [OutOfBounds] for a coordinate outside its extent, [EmptyVolume] before
    allocation.  A cell nothing populated has no defined sample to give.
    The accessor of [MyImage3D.h] (missing) as the spec describes the
    reference implementation is [Index_ref] below; the two agree at every
    valid coordinate triple of an allocated image. *)
Definition Index (s r c : Z) : M Z := fun vol =>
  match vol with
  | None => (Fail EmptyVolume, vol)
  | Some img =>
      if valid img s r c
      then match samples img !! Z.to_nat (offset img s r c) with
           | Some (Some x) => (Ok x, vol)
           | _ => (Undefined, vol)
           end
      else (Fail OutOfBounds, vol)
  end.

(** Modelled from the spec: the assignment [image3d.Index(s,r,c) = v]
    through the accessor as section 4.1 specifies it, at(s, r, c) = value
    with the bounds check.  The value is converted to the sample type.  The
    unchecked store of the reference implementation is [Index_ref_assign]
    below. *)
Definition Index_assign (s r c : Z) (v : Z) : M unit := fun vol =>
  match vol with
  | None => (Fail EmptyVolume, vol)
  | Some img =>
      if valid img s r c
      then (Ok tt,
            Some (mk_image (depth img) (rows img) (cols img)
                    (<[Z.to_nat (offset img s r c) := Some (to_ushort v)]> (samples img))))
      else (Fail OutOfBounds, vol)
  end.

(** Modelled from the spec: [vtk_image_data->GetDimensions(dims_xyz)], a
    call into the toolkit object the image owns.  It gives the extents in
    x, y, z order: columns, rows, depth. *)
Definition GetDimensions : M (Z * Z * Z) := fun vol =>
  match vol with
  | None => (Fail EmptyVolume, vol)
  | Some img => (Ok (cols img, rows img, depth img), vol)
  end.

(** Modelled from the spec: the buffer slot an unchecked access reaches.
    The offset is computed from the coordinates by the same arithmetic, no
    coordinate is compared with its extent; the slot exists when the offset
    falls inside the buffer. *)
Definition slot (img : image) (s r c : Z) : option nat :=
  let k := offset img s r c in
  if (0 <=? k) && (k <? Z.of_nat (length (samples img)))
  then Some (Z.to_nat k)
  else None.

(** Modelled from the spec: reading through [MyImage3D::Index] of
    [MyImage3D.h] (missing) as sections 4.1 and 9 describe the reference
    implementation: unchecked indexing into the flat buffer by pointer
    arithmetic, reporting no failure.  The slot the coordinates lead to is
    read when the buffer has it; a read outside the buffer, or with no
    buffer at all, has no defined result. *)
Definition Index_ref (s r c : Z) : M Z := fun vol =>
  match vol with
  | None => (Undefined, vol)
  | Some img =>
      match slot img s r c with
      | Some k =>
          match samples img !! k with
          | Some (Some x) => (Ok x, vol)
          | _ => (Undefined, vol)
          end
      | None => (Undefined, vol)
      end
  end.


End MyImage3D.

Import MyImage3D.

(** ** The program *)

(** [n] rounds of a counting loop from [i], the body threading an
    accumulator. *)
Fixpoint iterate {A : Type} (n : nat) (i : Z) (body : Z -> A -> M A) (a : A) : M A :=
  match n with
  | O => mret a
  | S n' => a' ← body i a; iterate n' (i + 1) body a'
  end.

(** [for (int i = lo; i < hi; i++) body]. *)
Definition for_loop {A : Type} (lo hi : Z) (body : Z -> A -> M A) (a : A) : M A :=
  iterate (Z.to_nat (hi - lo)) lo body a.

(** The scan of [main] (lines 186-199): the running maximum is an
    [unsigned short], first taken from cell (0,0,0), then compared with
    every cell of the image. *)
Definition maximum : M Z :=
  first ← Index 0 0 0;
  dims_xyz ← GetDimensions;
  let '(dims_x, dims_y, dims_z) := dims_xyz in
  for_loop 0 dims_z (fun s maximum =>
    for_loop 0 dims_y (fun r maximum =>
      for_loop 0 dims_x (fun c maximum =>
        x ← Index s r c;
        if x >? maximum
        then (y ← Index s r c; mret (to_ushort y))
        else mret maximum)
      maximum)
    maximum)
  (to_ushort first).

(** [main] up to the point where the maximum is printed (lines 171-199),
    run on the freshly declared image. *)
Definition main : M Z :=
  Set_ 10 10 10;;
  FillInWith 0;;
  Index_assign 1 2 3 15;;
  Index_assign 4 2 2 5;;
  Index_assign 8 6 3 7;;
  Index_assign 5 6 8 20000;;
  Index_assign 3 3 3 1;;
  Index_assign 1 1 1 15;;
  maximum.


(** The scan of [main] (lines 186-199) with the accessor it calls left
    open; [maximum] is this scan over [Index]. *)
Definition scan (Index : Z -> Z -> Z -> M Z) : M Z :=
  first ← Index 0 0 0;
  dims_xyz ← GetDimensions;
  let '(dims_x, dims_y, dims_z) := dims_xyz in
  for_loop 0 dims_z (fun s maximum =>
    for_loop 0 dims_y (fun r maximum =>
      for_loop 0 dims_x (fun c maximum =>
        x ← Index s r c;
        if x >? maximum
        then (y ← Index s r c; mret (to_ushort y))
        else mret maximum)
      maximum)
    maximum)
  (to_ushort first).

(** The scan as the spec's design note allows it to be rewritten: nothing is
    read before the loop, and the running maximum starts with the first
    cell the loop visits. *)
Definition maximum_first_in_loop : M Z :=
  dims_xyz ← GetDimensions;
  let '(dims_x, dims_y, dims_z) := dims_xyz in
  best ← for_loop 0 dims_z (fun s best =>
    for_loop 0 dims_y (fun r best =>
      for_loop 0 dims_x (fun c best =>
        x ← Index s r c;
        match best with
        | None => mret (Some (to_ushort x))
        | Some maximum =>
            if x >? maximum
            then (y ← Index s r c; mret (Some (to_ushort y)))
            else mret (Some maximum)
        end)
      best)
    best)
  None;
  match best with
  | Some maximum => mret maximum
  | None => throw EmptyVolume
  end.

(** The operations of the container, as requests. *)
Inductive operation : Type :=
  | Allocate (d r c : Z)
  | Fill (v : Z)
  | Read (s r c : Z)
  | Write (s r c : Z) (v : Z)
  | Maximum.

(** Running a request; a request with no result of its own gives [None]. *)
Definition run (o : operation) : M (option Z) :=
  match o with
  | Allocate d r c => Set_ d r c;; mret None
  | Fill v => FillInWith v;; mret None
  | Read s r c => x ← Index s r c; mret (Some x)
  | Write s r c v => Index_assign s r c v;; mret None
  | Maximum => x ← maximum; mret (Some x)
  end.

(** ** The text [main] puts on the screen *)

(** [(int)(maximum)]: conversion to a 32-bit [int]. *)
Definition to_int32 (z : Z) : Z :=
  (z + 2147483648) mod 4294967296 - 2147483648.

(** [stream << n] for an [int] [n]: its decimal digits, after a minus sign
    when it is negative. *)
Definition put_int (n : Z) : string :=
  DecimalString.NilZero.string_of_int (Z.to_int n).

(** [endl] puts a newline, [ends] a NUL character. *)
Definition newline : Ascii.ascii := Ascii.ascii_of_nat 10.
Definition endl : string := String newline "".
Definition ends : string := String Ascii.zero "".

(** [text.str()] after lines 228-229:
    [text<<"maximum = "<<((int)(maximum))<<endl; text<<ends;]. *)
Definition menu_text (maximum : Z) : string :=
  "maximum = " +:+ put_int (to_int32 maximum) +:+ endl +:+ ends.

(** A character array read as a C string: what comes before the first NUL. *)
Fixpoint c_str (s : string) : string :=
  match s with
  | EmptyString => EmptyString
  | String a s' => if Ascii.eqb a Ascii.zero then EmptyString else String a (c_str s')
  end.

(** What [menu_text_actor->SetInput(text.str().c_str())] hands to the text
    actor (line 230). *)
Definition menu_input (maximum : Z) : string := c_str (menu_text maximum).

(** The scan followed by the making of the text (lines 186-230); nothing in
    between touches the image. *)
Definition show_maximum : M string :=
  maximum ← maximum; mret (menu_input maximum).

(** No character of [s] is [a]. *)
Fixpoint free_of (a : Ascii.ascii) (s : string) : bool :=
  match s with
  | EmptyString => true
  | String b s' => negb (Ascii.eqb b a) && free_of a s'
  end.

(** ** Well-formed, allocated and fully defined images *)

(** A value of the sample type. *)
Definition is_sample (z : Z) : Prop := 0 <= z < 65536.

(** What allocation establishes and every operation keeps: positive
    extents, one buffer slot per cell, and only sample values stored. *)
Record wf (img : image) : Prop := mk_wf {
  wf_depth : 0 < depth img;
  wf_rows : 0 < rows img;
  wf_cols : 0 < cols img;
  wf_length : length (samples img) = Z.to_nat (depth img * rows img * cols img);
  wf_range : Forall (fun o => forall x, o = Some x -> is_sample x) (samples img)
}.

(** Every cell was populated by a fill or a write. *)
Definition fully_defined (img : image) : Prop :=
  Forall (fun o : option Z => is_Some o) (samples img).

(** The stored sample of a cell (0 where there is none). *)
Definition sample_of (img : image) (s r c : Z) : Z :=
  match samples img !! Z.to_nat (offset img s r c) with
  | Some (Some x) => x
  | _ => 0
  end.

(** ** Specification vocabulary *)

(** [m] run on [vol] gives a value satisfying [Q] and the same image. *)
Definition returns {A : Type} (m : M A) (vol : t) (Q : A -> Prop) : Prop :=
  exists a, m vol = (Ok a, vol) /\ Q a.

(** [m] never changes the image, whatever its outcome. *)
Definition readonly {A : Type} (m : M A) : Prop :=
  forall vol, snd (m vol) = vol.

(** [m] is at least every sample stored before position [k]. *)
Definition bounds_below (img : image) (k m : Z) : Prop :=
  forall s r c, valid img s r c = true -> offset img s r c < k ->
                sample_of img s r c <= m.

(** [m] is the sample of some cell. *)
Definition attained (img : image) (m : Z) : Prop :=
  exists s r c, valid img s r c = true /\ sample_of img s r c = m.

Definition scanned (img : image) (k m : Z) : Prop :=
  is_sample m /\ attained img m /\ bounds_below img k m.

(** The same for a running maximum that may not have started yet. *)
Definition scanned_opt (img : image) (k : Z) (best : option Z) : Prop :=
  match best with
  | None => k <= 0
  | Some m => scanned img k m
  end.

(** [m] is the largest sample of the image. *)
Definition largest (img : image) (m : Z) : Prop :=
  attained img m /\
  forall s r c, valid img s r c = true -> sample_of img s r c <= m.

(** The images the program can get to: the freshly declared object, and
    what any request makes of a reachable one. *)
Inductive reachable : t -> Prop :=
  | reachable_fresh : reachable None
  | reachable_run (o : operation) (vol : t) :
      reachable vol -> reachable (snd (run o vol)).

(** A small fully defined image to try the statements on. *)
Definition small_image : image :=
  mk_image 1 2 2 [Some 3; Some 9; Some 4; Some 9].

(** [m] run on [vol] never fails and never changes the image; when it
    gives a value, the value satisfies [Q]. *)
Definition unfailing {A : Type} (m : M A) (vol : t) (Q : A -> Prop) : Prop :=
  match m vol with
  | (Ok a, vol') => vol' = vol /\ Q a
  | (Fail _, _) => False
  | (Undefined, vol') => vol' = vol
  end.

(** Every cell before position [k] holds a sample. *)
Definition populated_below (img : image) (k : Z) : Prop :=
  forall s r c, valid img s r c = true -> offset img s r c < k ->
                exists x, samples img !! Z.to_nat (offset img s r c) = Some (Some x).

(** The image a store of [v] at cell (s, r, c) leaves. *)
Definition stored (img : image) (s r c v : Z) : image :=
  mk_image (depth img) (rows img) (cols img)
    (<[Z.to_nat (offset img s r c) := Some (to_ushort v)]> (samples img)).

(** The image a fill with [v] leaves. *)
Definition filled (img : image) (v : Z) : image :=
  mk_image (depth img) (rows img) (cols img)
    (fmap (fun _ => Some (to_ushort v)) (samples img)).

(** The image that was allocated, filled with 7 and not written to. *)
Definition sevens : t := snd (run (Fill 7) (snd (run (Allocate 1 2 2) None))).

(** An allocated image with nothing populated yet. *)
Definition blank_image : image :=
  mk_image 1 2 2 [None; None; None; None].

(** ** The layout of the buffer *)

Lemma valid_spec (img : image) (s r c : Z) :
  valid img s r c = true <->
  0 <= s < depth img /\ 0 <= r < rows img /\ 0 <= c < cols img.
Proof.
  unfold valid. rewrite !andb_true_iff, !Z.leb_le, !Z.ltb_lt. lia.
Qed.

Lemma valid_false_spec (img : image) (s r c : Z) :
  valid img s r c = false <->
  s < 0 \/ depth img <= s \/ r < 0 \/ rows img <= r \/ c < 0 \/ cols img <= c.
Proof.
  rewrite <- not_true_iff_false, valid_spec. lia.
Qed.

(** A row-major position determines its two parts. *)
Lemma row_major_inj (n a b a' b' : Z) :
  0 <= b < n -> 0 <= b' < n -> a * n + b = a' * n + b' -> a = a' /\ b = b'.
Proof.
  intros Hb Hb' E.
  assert (a = a') as -> by nia.
  split; [reflexivity | lia].
Qed.

Lemma offset_inj (img : image) (s r c s' r' c' : Z) :
  valid img s r c = true -> valid img s' r' c' = true ->
  offset img s r c = offset img s' r' c' ->
  s = s' /\ r = r' /\ c = c'.
Proof.
  rewrite !valid_spec. unfold offset. intros (Hs & Hr & Hc) (Hs' & Hr' & Hc') E.
  apply row_major_inj in E as [E ->]; [| lia | lia].
  apply row_major_inj in E as [-> ->]; [| lia | lia].
  auto.
Qed.

Lemma offset_bounds (img : image) (s r c : Z) :
  valid img s r c = true ->
  0 <= offset img s r c < depth img * rows img * cols img.
Proof.
  rewrite valid_spec. unfold offset. intros (Hs & Hr & Hc).
  assert (0 <= s * rows img + r < depth img * rows img) by nia.
  nia.
Qed.

Lemma offset_in_buffer (img : image) (s r c : Z) :
  wf img -> valid img s r c = true ->
  (Z.to_nat (offset img s r c) < length (samples img))%nat.
Proof.
  intros W V. rewrite (wf_length img W).
  pose proof (offset_bounds img s r c V). lia.
Qed.

Lemma to_ushort_sample (z : Z) : is_sample z -> to_ushort z = z.
Proof. unfold is_sample, to_ushort. intros H. apply Z.mod_small. lia. Qed.

Lemma to_ushort_is_sample (z : Z) : is_sample (to_ushort z).
Proof. unfold is_sample, to_ushort. apply Z.mod_pos_bound. lia. Qed.

(** ** Reading a cell *)

Lemma Index_state (s r c : Z) (vol : t) : snd (Index s r c vol) = vol.
Proof.
  unfold Index. destruct vol as [img |]; [| reflexivity].
  destruct (valid img s r c); [| reflexivity].
  destruct (samples img !! Z.to_nat (offset img s r c)) as [[x |] |]; reflexivity.
Qed.

Lemma Index_defined (img : image) (s r c : Z) :
  wf img -> fully_defined img -> valid img s r c = true ->
  Index s r c (Some img) = (Ok (sample_of img s r c), Some img).
Proof.
  intros W F V. unfold Index, sample_of. rewrite V.
  destruct (lookup_lt_is_Some_2 _ _ (offset_in_buffer img s r c W V)) as [o Ho].
  rewrite Ho.
  destruct (proj1 (Forall_lookup _ _) F _ _ Ho) as [x ->]. reflexivity.
Qed.

Lemma sample_of_is_sample (img : image) (s r c : Z) :
  wf img -> fully_defined img -> valid img s r c = true ->
  is_sample (sample_of img s r c).
Proof.
  intros W F V. unfold sample_of.
  destruct (lookup_lt_is_Some_2 _ _ (offset_in_buffer img s r c W V)) as [o Ho].
  rewrite Ho.
  destruct (proj1 (Forall_lookup _ _) F _ _ Ho) as [x ->].
  exact (proj1 (Forall_lookup _ _) (wf_range img W) _ _ Ho x eq_refl).
Qed.

(** ** Runs that give a value and leave the image alone *)

Lemma returns_ret {A : Type} (a : A) (vol : t) (Q : A -> Prop) :
  Q a -> returns (mret a) vol Q.
Proof. intros H. exists a. split; [reflexivity | exact H]. Qed.

Lemma returns_bind {A B : Type} (m : M A) (f : A -> M B) (vol : t)
    (P : A -> Prop) (Q : B -> Prop) :
  returns m vol P ->
  (forall a, P a -> returns (f a) vol Q) ->
  returns (m ≫= f) vol Q.
Proof.
  intros (a & E & Pa) Hf.
  destruct (Hf a Pa) as (b & E' & Qb).
  exists b. split; [| exact Qb].
  unfold mbind, M_bind. rewrite E. exact E'.
Qed.

Lemma returns_weaken {A : Type} (m : M A) (vol : t) (P Q : A -> Prop) :
  returns m vol P -> (forall a, P a -> Q a) -> returns m vol Q.
Proof. intros (a & E & Pa) H. exists a. auto. Qed.

(** The invariant rule of the counting loop. *)
Lemma returns_iterate {A : Type} (Inv : Z -> A -> Prop) (body : Z -> A -> M A)
    (vol : t) (n : nat) :
  forall (i : Z) (a : A),
  Inv i a ->
  (forall j b, i <= j < i + Z.of_nat n -> Inv j b ->
     returns (body j b) vol (Inv (j + 1))) ->
  returns (iterate n i body a) vol (Inv (i + Z.of_nat n)).
Proof.
  induction n as [| n IH]; intros i a Ha Hbody.
  - simpl. apply returns_ret. replace (i + Z.of_nat 0) with i by lia. exact Ha.
  - simpl iterate. eapply returns_bind.
    + apply (Hbody i a); [lia | exact Ha].
    + intros a' Ha'.
      replace (i + Z.of_nat (S n)) with ((i + 1) + Z.of_nat n) by lia.
      apply IH; [exact Ha' |].
      intros j b Hj. apply Hbody. lia.
Qed.

Lemma returns_for_loop {A : Type} (Inv : Z -> A -> Prop) (body : Z -> A -> M A)
    (vol : t) (lo hi : Z) (a : A) :
  lo <= hi ->
  Inv lo a ->
  (forall j b, lo <= j < hi -> Inv j b -> returns (body j b) vol (Inv (j + 1))) ->
  returns (for_loop lo hi body a) vol (Inv hi).
Proof.
  intros Hle Ha Hbody. unfold for_loop.
  replace hi with (lo + Z.of_nat (Z.to_nat (hi - lo))) at 2 by lia.
  apply returns_iterate; [exact Ha |].
  intros j b Hj. apply Hbody. lia.
Qed.

(** ** What the scan has established after [k] cells *)

Lemma largest_unique (img : image) (m m' : Z) :
  largest img m -> largest img m' -> m = m'.
Proof.
  intros [(s & r & c & V & E) U] [(s' & r' & c' & V' & E') U'].
  specialize (U s' r' c' V'). specialize (U' s r c V). lia.
Qed.

Lemma scanned_all (img : image) (m : Z) :
  scanned img (depth img * rows img * cols img) m -> largest img m.
Proof.
  intros (_ & Hatt & Hb). split; [exact Hatt |].
  intros s r c V. apply Hb; [exact V |].
  apply (offset_bounds img s r c V).
Qed.

Lemma scanned_step (img : image) (s r c m : Z) :
  wf img -> fully_defined img -> valid img s r c = true ->
  scanned img (offset img s r c) m ->
  scanned img (offset img s r c + 1)
    (if sample_of img s r c >? m then sample_of img s r c else m).
Proof.
  intros W F V (Hm & Hatt & Hb).
  assert (forall m', m <= m' -> sample_of img s r c <= m' ->
                     bounds_below img (offset img s r c + 1) m') as Hnext.
  { intros m' Hle Hx s' r' c' V' Hlt.
    destruct (Z.eq_dec (offset img s' r' c') (offset img s r c)) as [E | N].
    - apply offset_inj in E as (-> & -> & ->); [exact Hx | exact V' | exact V].
    - specialize (Hb s' r' c' V'). lia. }
  destruct (sample_of img s r c >? m) eqn:C.
  - apply Z.gtb_lt in C. split; [| split].
    + apply sample_of_is_sample; assumption.
    + exists s, r, c. auto.
    + apply Hnext; lia.
  - rewrite Z.gtb_ltb, Z.ltb_ge in C. split; [| split]; [assumption .. |].
    apply Hnext; lia.
Qed.

Lemma scanned_first (img : image) (s r c k : Z) :
  wf img -> fully_defined img -> valid img s r c = true ->
  k <= 0 -> k = offset img s r c ->
  scanned img (offset img s r c + 1) (sample_of img s r c).
Proof.
  intros W F V Hk E. split; [| split].
  - apply sample_of_is_sample; assumption.
  - exists s, r, c. auto.
  - intros s' r' c' V' Hlt.
    pose proof (offset_bounds img s' r' c' V') as Hb.
    assert (offset img s' r' c' = offset img s r c) as E' by lia.
    apply offset_inj in E' as (-> & -> & ->); [lia | exact V' | exact V].
Qed.

(** ** The two scans on a fully defined image *)

Section Scan.

Variable img : image.
Hypothesis W : wf img.
Hypothesis F : fully_defined img.

Lemma returns_Index (s r c : Z) :
  valid img s r c = true ->
  returns (Index s r c) (Some img) (fun x => x = sample_of img s r c).
Proof.
  intros V. exists (sample_of img s r c).
  split; [apply Index_defined; assumption | reflexivity].
Qed.

Lemma returns_GetDimensions :
  returns GetDimensions (Some img)
    (fun d => d = (cols img, rows img, depth img)).
Proof. eexists. split; reflexivity. Qed.

Lemma origin_valid : valid img 0 0 0 = true.
Proof.
  apply valid_spec.
  pose proof (wf_depth img W). pose proof (wf_rows img W).
  pose proof (wf_cols img W). lia.
Qed.

Lemma offset_next_col (s r c : Z) :
  offset img s r (c + 1) = offset img s r c + 1.
Proof. unfold offset. lia. Qed.

Lemma offset_next_row (s r : Z) :
  offset img s r (cols img) = offset img s (r + 1) 0.
Proof. unfold offset. lia. Qed.

Lemma offset_next_slice (s : Z) :
  offset img s (rows img) 0 = offset img (s + 1) 0 0.
Proof. unfold offset. lia. Qed.

Lemma offset_end : offset img (depth img) 0 0 = depth img * rows img * cols img.
Proof. unfold offset. lia. Qed.

(** One round of the innermost loop of [maximum]. *)
Lemma maximum_body (s r c m : Z) :
  valid img s r c = true ->
  scanned img (offset img s r c) m ->
  returns (x ← Index s r c;
           if x >? m then (y ← Index s r c; mret (to_ushort y)) else mret m)
    (Some img) (scanned img (offset img s r (c + 1))).
Proof.
  intros V S. rewrite offset_next_col.
  pose proof (scanned_step img s r c m W F V S) as Hstep.
  eapply returns_bind; [apply returns_Index; exact V |].
  intros x ->. simpl.
  destruct (sample_of img s r c >? m).
  - eapply returns_bind; [apply returns_Index; exact V |].
    intros y ->. simpl. apply returns_ret.
    rewrite to_ushort_sample; [exact Hstep |].
    apply sample_of_is_sample; assumption.
  - apply returns_ret. exact Hstep.
Qed.

(** One round of the innermost loop of [maximum_first_in_loop]. *)
Lemma maximum_first_in_loop_body (s r c : Z) (best : option Z) :
  valid img s r c = true ->
  scanned_opt img (offset img s r c) best ->
  returns (x ← Index s r c;
           match best with
           | None => mret (Some (to_ushort x))
           | Some m =>
               if x >? m
               then (y ← Index s r c; mret (Some (to_ushort y)))
               else mret (Some m)
           end)
    (Some img) (scanned_opt img (offset img s r (c + 1))).
Proof.
  intros V S. rewrite offset_next_col.
  pose proof (sample_of_is_sample img s r c W F V) as Hx.
  eapply returns_bind; [apply returns_Index; exact V |].
  intros x ->. simpl.
  destruct best as [m |]; simpl in S.
  - pose proof (scanned_step img s r c m W F V S) as Hstep.
    destruct (sample_of img s r c >? m).
    + eapply returns_bind; [apply returns_Index; exact V |].
      intros y ->. simpl. apply returns_ret.
      rewrite to_ushort_sample by exact Hx. exact Hstep.
    + apply returns_ret. exact Hstep.
  - apply returns_ret. rewrite to_ushort_sample by exact Hx.
    simpl. apply (scanned_first img s r c (offset img s r c)); auto.
Qed.

(** The three nested loops, for any body that advances the invariant by
    one cell. *)
Lemma returns_nested_loops {A : Type} (Inv : Z -> A -> Prop)
    (body : Z -> Z -> Z -> A -> M A) (a : A) :
  Inv 0 a ->
  (forall s r c b, valid img s r c = true -> Inv (offset img s r c) b ->
     returns (body s r c b) (Some img) (Inv (offset img s r (c + 1)))) ->
  returns
    (for_loop 0 (depth img) (fun s b =>
       for_loop 0 (rows img) (fun r b =>
         for_loop 0 (cols img) (fun c b => body s r c b) b) b) a)
    (Some img) (Inv (depth img * rows img * cols img)).
Proof.
  intros Ha Hbody.
  pose proof (wf_depth img W) as Hd. pose proof (wf_rows img W) as Hr.
  pose proof (wf_cols img W) as Hc.
  rewrite <- offset_end.
  apply (returns_for_loop (fun s b => Inv (offset img s 0 0) b)); [lia | exact Ha |].
  intros s b Hs Hb. rewrite <- offset_next_slice.
  apply (returns_for_loop (fun r b => Inv (offset img s r 0) b)); [lia | exact Hb |].
  intros r b' Hr' Hb'. rewrite <- offset_next_row.
  apply (returns_for_loop (fun c b => Inv (offset img s r c) b)); [lia | exact Hb' |].
  intros c b'' Hc' Hb''. apply Hbody; [| exact Hb''].
  apply valid_spec. lia.
Qed.

(** The scan of [main] gives the largest sample and leaves the image as
    it was. *)
Lemma maximum_largest :
  returns maximum (Some img) (fun m => is_sample m /\ largest img m).
Proof.
  unfold maximum.
  eapply returns_bind; [apply returns_Index; exact origin_valid |].
  intros first ->.
  eapply returns_bind; [apply returns_GetDimensions |].
  intros dims ->.
  eapply returns_weaken.
  - apply (returns_nested_loops (scanned img)
             (fun s r c m => x ← Index s r c;
                if x >? m then (y ← Index s r c; mret (to_ushort y)) else mret m)).
    + pose proof (sample_of_is_sample img 0 0 0 W F origin_valid) as H0.
      rewrite to_ushort_sample by exact H0.
      split; [exact H0 | split].
      * exists 0, 0, 0. split; [exact origin_valid | reflexivity].
      * intros s r c V Hlt. pose proof (offset_bounds img s r c V). lia.
    + intros s r c m. apply maximum_body.
  - intros m S. split; [apply S | apply scanned_all; exact S].
Qed.

(** So does the scan that starts inside the loop. *)
Lemma maximum_first_in_loop_largest :
  returns maximum_first_in_loop (Some img) (fun m => is_sample m /\ largest img m).
Proof.
  unfold maximum_first_in_loop.
  eapply returns_bind; [apply returns_GetDimensions |].
  intros dims ->.
  eapply returns_bind.
  - apply (returns_nested_loops (scanned_opt img)
             (fun s r c best => x ← Index s r c;
                match best with
                | None => mret (Some (to_ushort x))
                | Some m =>
                    if x >? m
                    then (y ← Index s r c; mret (Some (to_ushort y)))
                    else mret (Some m)
                end)).
    + simpl. lia.
    + intros s r c best. apply maximum_first_in_loop_body.
  - intros [m |] S; simpl in S.
    + apply returns_ret. split; [apply S | apply scanned_all; exact S].
    + pose proof (wf_depth img W). pose proof (wf_rows img W).
      pose proof (wf_cols img W). nia.
Qed.

End Scan.

(** ** Calls that never change the image *)

Lemma readonly_ret {A : Type} (a : A) : readonly (mret a : M A).
Proof. intros vol. reflexivity. Qed.

Lemma readonly_bind {A B : Type} (m : M A) (f : A -> M B) :
  readonly m -> (forall a, readonly (f a)) -> readonly (m ≫= f).
Proof.
  intros Hm Hf vol. unfold mbind, M_bind.
  specialize (Hm vol). destruct (m vol) as [[a | e |] vol']; simpl in Hm; subst vol'.
  - apply Hf.
  - reflexivity.
  - reflexivity.
Qed.

Lemma readonly_iterate {A : Type} (body : Z -> A -> M A) (n : nat) :
  (forall i a, readonly (body i a)) ->
  forall i a, readonly (iterate n i body a).
Proof.
  intros Hbody. induction n as [| n IH]; intros i a; simpl.
  - apply readonly_ret.
  - apply readonly_bind; [apply Hbody | intros a'; apply IH].
Qed.

Lemma readonly_for_loop {A : Type} (lo hi : Z) (body : Z -> A -> M A) (a : A) :
  (forall i b, readonly (body i b)) -> readonly (for_loop lo hi body a).
Proof. intros H. unfold for_loop. apply readonly_iterate. exact H. Qed.

Lemma readonly_Index (s r c : Z) : readonly (Index s r c).
Proof. intros vol. apply Index_state. Qed.

Lemma readonly_GetDimensions : readonly GetDimensions.
Proof. intros [img |]; reflexivity. Qed.

Lemma readonly_maximum : readonly maximum.
Proof.
  unfold maximum.
  apply readonly_bind; [apply readonly_Index | intros first].
  apply readonly_bind; [apply readonly_GetDimensions | intros [[dx dy] dz]].
  apply readonly_for_loop; intros s m.
  apply readonly_for_loop; intros r m'.
  apply readonly_for_loop; intros c m''.
  apply readonly_bind; [apply readonly_Index | intros x].
  destruct (x >? m'').
  - apply readonly_bind; [apply readonly_Index | intros y; apply readonly_ret].
  - apply readonly_ret.
Qed.

(** ** The operations one by one *)

Lemma Set_ok (d r c : Z) (vol : t) :
  0 < d -> 0 < r -> 0 < c ->
  Set_ d r c vol =
  (Ok tt, Some (mk_image d r c (replicate (Z.to_nat (d * r * c)) None))).
Proof.
  intros Hd Hr Hc. unfold Set_.
  rewrite (proj2 (Z.ltb_lt 0 d) Hd), (proj2 (Z.ltb_lt 0 r) Hr),
    (proj2 (Z.ltb_lt 0 c) Hc).
  reflexivity.
Qed.

Lemma Set_fail (d r c : Z) (vol : t) :
  d <= 0 \/ r <= 0 \/ c <= 0 ->
  Set_ d r c vol = (Fail InvalidDimension, vol).
Proof.
  intros H. unfold Set_.
  destruct (0 <? d) eqn:Ed; [| reflexivity].
  destruct (0 <? r) eqn:Er; [| reflexivity].
  destruct (0 <? c) eqn:Ec; [| reflexivity].
  apply Z.ltb_lt in Ed, Er, Ec. lia.
Qed.

Lemma Index_assign_ok (img : image) (s r c v : Z) :
  valid img s r c = true ->
  Index_assign s r c v (Some img) =
  (Ok tt,
   Some (mk_image (depth img) (rows img) (cols img)
           (<[Z.to_nat (offset img s r c) := Some (to_ushort v)]> (samples img)))).
Proof. intros V. unfold Index_assign. rewrite V. reflexivity. Qed.

(** Allocation establishes well-formedness; fill and write keep it. *)
Lemma Set_wf (d r c : Z) :
  0 < d -> 0 < r -> 0 < c ->
  wf (mk_image d r c (replicate (Z.to_nat (d * r * c)) None)).
Proof.
  intros Hd Hr Hc. constructor; simpl; try assumption.
  - apply length_replicate.
  - apply Forall_replicate. intros x E. discriminate E.
Qed.

Lemma FillInWith_wf (img : image) (v : Z) :
  wf img ->
  wf (mk_image (depth img) (rows img) (cols img)
        (fmap (fun _ => Some (to_ushort v)) (samples img))).
Proof.
  intros [Hd Hr Hc Hl Hrange]. constructor; simpl; try assumption.
  - rewrite length_fmap. exact Hl.
  - apply Forall_fmap, Forall_true. intros o x E. simpl in E.
    injection E as <-. apply to_ushort_is_sample.
Qed.

Lemma Index_assign_wf (img : image) (k : nat) (v : Z) :
  wf img ->
  wf (mk_image (depth img) (rows img) (cols img)
        (<[k := Some (to_ushort v)]> (samples img))).
Proof.
  intros [Hd Hr Hc Hl Hrange]. constructor; simpl; try assumption.
  - rewrite length_insert. exact Hl.
  - apply Forall_insert; [exact Hrange |].
    intros x E. injection E as <-. apply to_ushort_is_sample.
Qed.

(** Every image the operations build from a well-formed one (or from the
    unallocated object) is well-formed. *)
Lemma run_wf (o : operation) (vol : t) :
  (forall img, vol = Some img -> wf img) ->
  forall img', snd (run o vol) = Some img' -> wf img'.
Proof.
  intros Hvol img'. destruct o as [d r c | v | s r c | s r c v |]; simpl;
    unfold mbind, M_bind.
  - unfold Set_.
    destruct (0 <? d) eqn:Ed; [destruct (0 <? r) eqn:Er;
      [destruct (0 <? c) eqn:Ec |] |]; simpl; try (apply Hvol).
    intros [= <-]. apply Z.ltb_lt in Ed, Er, Ec. apply Set_wf; assumption.
  - destruct vol as [img |]; simpl; [| discriminate].
    intros [= <-]. apply FillInWith_wf. apply Hvol. reflexivity.
  - pose proof (Index_state s r c vol) as E.
    destruct (Index s r c vol) as [[x | e |] vol']; simpl in *; subst vol';
      apply Hvol.
  - destruct vol as [img |]; simpl; [| discriminate].
    destruct (valid img s r c); simpl.
    + intros [= <-]. apply Index_assign_wf. apply Hvol. reflexivity.
    + apply Hvol.
  - pose proof (readonly_maximum vol) as E.
    destruct (maximum vol) as [[x | e |] vol']; simpl in *; subst vol';
      apply Hvol.
Qed.

Lemma reachable_wf (vol : t) :
  reachable vol -> forall img, vol = Some img -> wf img.
Proof.
  induction 1 as [| o vol R IH]; intros img E.
  - discriminate E.
  - exact (run_wf o vol IH img E).
Qed.

Lemma small_image_wf : wf small_image.
Proof.
  constructor; simpl; try lia.
  repeat (apply Forall_cons_2; [intros x [= <-]; unfold is_sample; lia |]).
  apply Forall_nil_2.
Defined.

Lemma small_image_fully_defined : fully_defined small_image.
Proof.
  unfold fully_defined, small_image; simpl.
  repeat (apply Forall_cons_2; [eexists; reflexivity |]).
  apply Forall_nil_2.
Defined.

Lemma FillInWith_ok (img : image) (v : Z) :
  FillInWith v (Some img) =
  (Ok tt,
   Some (mk_image (depth img) (rows img) (cols img)
           (fmap (fun _ => Some (to_ushort v)) (samples img)))).
Proof. reflexivity. Qed.

Lemma Index_lookup (img : image) (s r c x : Z) :
  valid img s r c = true ->
  samples img !! Z.to_nat (offset img s r c) = Some (Some x) ->
  Index s r c (Some img) = (Ok x, Some img).
Proof. intros V E. unfold Index. rewrite V, E. reflexivity. Qed.

Lemma Index_invalid (img : image) (s r c : Z) :
  valid img s r c = false ->
  Index s r c (Some img) = (Fail OutOfBounds, Some img).
Proof. intros V. unfold Index. rewrite V. reflexivity. Qed.

Lemma Index_assign_invalid (img : image) (s r c v : Z) :
  valid img s r c = false ->
  Index_assign s r c v (Some img) = (Fail OutOfBounds, Some img).
Proof. intros V. unfold Index_assign. rewrite V. reflexivity. Qed.

(** ** The program on small inputs *)

Example maximum_small_image :
  maximum (Some small_image) = (Ok 9, Some small_image).
Proof. reflexivity. Qed.

Example maximum_first_in_loop_small_image :
  maximum_first_in_loop (Some small_image) = (Ok 9, Some small_image).
Proof. reflexivity. Qed.

(** Scanning right after allocation meets a sample nothing populated. *)
Example maximum_before_fill : fst ((Set_ 2 2 2;; maximum) None) = Undefined.
Proof. reflexivity. Qed.

(** A store converts to the sample type. *)
Example Index_assign_converts :
  fst ((Index_assign 0 0 1 65537;; Index 0 0 1) (Some small_image)) = Ok 1.
Proof. reflexivity. Qed.

(** ** The claims

    Throughout, an allocated volume is [Some img] with [wf img]: the state
    [Set_] establishes and every operation keeps ([reachable_wf]). *)

(** Claim C1.  On every allocated and fully defined volume the scan gives a
    value [m] and leaves the volume as it was; every sample that can be read
    is at most [m], and [m] is itself the sample of some cell, so the result
    is the largest stored sample and never exceeds all stored values. *)
Theorem maximum_returns_largest (img : image) :
  wf img -> fully_defined img ->
  exists m,
    maximum (Some img) = (Ok m, Some img) /\
    (forall s r c x, fst (Index s r c (Some img)) = Ok x -> x <= m) /\
    (exists s r c, fst (Index s r c (Some img)) = Ok m).
Proof.
  intros W F.
  destruct (maximum_largest img W F) as (m & E & _ & (s & r & c & V & Em) & U).
  exists m. split; [exact E | split].
  - intros s' r' c' x Hx.
    destruct (valid img s' r' c') eqn:V'.
    + rewrite (Index_defined img s' r' c' W F V') in Hx. simpl in Hx.
      injection Hx as <-. apply U. exact V'.
    + rewrite (Index_invalid img s' r' c' V') in Hx. discriminate Hx.
  - exists s, r, c. rewrite (Index_defined img s r c W F V). simpl.
    rewrite Em. reflexivity.
Qed.

Lemma maximum_returns_largest_witness :
  wf small_image /\ fully_defined small_image /\
  exists m,
    maximum (Some small_image) = (Ok m, Some small_image) /\
    (forall s r c x, fst (Index s r c (Some small_image)) = Ok x -> x <= m) /\
    (exists s r c, fst (Index s r c (Some small_image)) = Ok m).
Proof.
  split; [exact small_image_wf |].
  split; [exact small_image_fully_defined |].
  apply (maximum_returns_largest small_image);
    [exact small_image_wf | exact small_image_fully_defined].
Defined.

(** Claim C2.  The scenario of [main]: dimensions (10,10,10), fill with 0,
    then 15 at (1,2,3), 5 at (4,2,2), 7 at (8,6,3), 20000 at (5,6,8), 1 at
    (3,3,3) and 15 at (1,1,1); the scan that follows gives 20000. *)
Theorem main_maximum : fst (main None) = Ok 20000.
Proof. vm_compute. reflexivity. Qed.

(** Claim C3.  For positive dimensions (d, r, c) and every sample value v,
    whatever the volume was before, setting the dimensions, filling with v
    and reading at a valid coordinate triple gives v. *)
Theorem fill_then_read (d r c v : Z) (vol : t) (s r' c' : Z) :
  0 < d -> 0 < r -> 0 < c -> is_sample v ->
  0 <= s < d -> 0 <= r' < r -> 0 <= c' < c ->
  fst ((Set_ d r c;; FillInWith v;; Index s r' c') vol) = Ok v.
Proof.
  intros Hd Hr Hc Hv Hs Hr' Hc'.
  unfold mbind, M_bind. rewrite Set_ok by assumption.
  rewrite FillInWith_ok.
  set (img := mk_image _ _ _ _).
  assert (valid img s r' c' = true) as V by (apply valid_spec; simpl; lia).
  rewrite (Index_lookup img s r' c' v V); [reflexivity |].
  pose proof (offset_bounds img s r' c' V) as Hb.
  subst img. simpl in *. rewrite list_lookup_fmap.
  rewrite lookup_replicate_2 by lia. simpl.
  rewrite to_ushort_sample by exact Hv. reflexivity.
Qed.

Lemma fill_then_read_witness :
  fst ((Set_ 2 3 4;; FillInWith 7;; Index 1 2 3) (Some small_image)) = Ok 7.
Proof.
  apply (fill_then_read 2 3 4 7 (Some small_image) 1 2 3);
    unfold is_sample; lia.
Defined.

(** Claim C4.  On an allocated volume, writing a sample value v at a valid
    coordinate triple succeeds; reading that cell next gives v, reading any
    other coordinate triple gives what it gave before the write, and the
    dimensions are the same. *)
Theorem write_then_read (img : image) (s r c v : Z) :
  wf img ->
  0 <= s < depth img -> 0 <= r < rows img -> 0 <= c < cols img ->
  is_sample v ->
  exists img',
    Index_assign s r c v (Some img) = (Ok tt, Some img') /\
    fst (Index s r c (Some img')) = Ok v /\
    (forall s' r' c', (s', r', c') <> (s, r, c) ->
       fst (Index s' r' c' (Some img')) = fst (Index s' r' c' (Some img))) /\
    fst (GetDimensions (Some img')) = fst (GetDimensions (Some img)).
Proof.
  intros W Hs Hr Hc Hv.
  assert (valid img s r c = true) as V by (apply valid_spec; lia).
  pose proof (offset_in_buffer img s r c W V) as Hlen.
  eexists. split; [apply Index_assign_ok; exact V |].
  set (img' := mk_image _ _ _ _).
  split; [| split].
  - rewrite (Index_lookup img' s r c v); [reflexivity | exact V |].
    subst img'. simpl. change (offset _ s r c) with (offset img s r c).
    rewrite list_lookup_insert_eq by exact Hlen.
    rewrite to_ushort_sample by exact Hv. reflexivity.
  - intros s' r' c' Hne. unfold Index.
    change (valid img' s' r' c') with (valid img s' r' c').
    destruct (valid img s' r' c') eqn:V'; [| reflexivity].
    subst img'. simpl. change (offset _ s' r' c') with (offset img s' r' c').
    rewrite list_lookup_insert_ne;
      [destruct (samples img !! Z.to_nat (offset img s' r' c')) as [[x |] |];
       reflexivity |].
    intros E. apply Hne.
    pose proof (offset_bounds img s r c V).
    pose proof (offset_bounds img s' r' c' V').
    assert (offset img s' r' c' = offset img s r c) as E' by lia.
    apply offset_inj in E' as (-> & -> & ->); [reflexivity | exact V' | exact V].
  - reflexivity.
Qed.

Lemma write_then_read_witness :
  exists img',
    Index_assign 0 1 0 20000 (Some small_image) = (Ok tt, Some img') /\
    fst (Index 0 1 0 (Some img')) = Ok 20000 /\
    (forall s' r' c', (s', r', c') <> (0, 1, 0) ->
       fst (Index s' r' c' (Some img')) = fst (Index s' r' c' (Some small_image))) /\
    fst (GetDimensions (Some img')) = fst (GetDimensions (Some small_image)).
Proof.
  apply (write_then_read small_image 0 1 0 20000);
    [exact small_image_wf | simpl; lia | simpl; lia | simpl; lia
    | unfold is_sample; lia].
Defined.

(** Claim C7.  Setting dimensions fails with [InvalidDimension] when one of
    the three arguments is not positive, as in (0, 5, 5).  With three
    positive arguments it gives a volume of these extents with
    depth x rows x cols cells, none of them holding anything of the volume
    that was there before: every cell reads as undefined. *)
Theorem Set_dimensions (d r c : Z) (vol : t) :
  (d <= 0 \/ r <= 0 \/ c <= 0 -> fst (Set_ d r c vol) = Fail InvalidDimension) /\
  fst (Set_ 0 5 5 vol) = Fail InvalidDimension /\
  (0 < d /\ 0 < r /\ 0 < c ->
   exists img,
     Set_ d r c vol = (Ok tt, Some img) /\
     depth img = d /\ rows img = r /\ cols img = c /\
     length (samples img) = Z.to_nat (d * r * c) /\
     forall s r' c', 0 <= s < d -> 0 <= r' < r -> 0 <= c' < c ->
       fst (Index s r' c' (Some img)) = Undefined).
Proof.
  split; [| split].
  - intros H. rewrite Set_fail by exact H. reflexivity.
  - reflexivity.
  - intros (Hd & Hr & Hc). eexists. split; [apply Set_ok; assumption |].
    simpl. repeat (split; [reflexivity |]).
    split; [apply length_replicate |].
    intros s r' c' Hs Hr' Hc'. unfold Index.
    set (img := mk_image _ _ _ _).
    assert (valid img s r' c' = true) as V by (apply valid_spec; simpl; lia).
    rewrite V. pose proof (offset_bounds img s r' c' V) as Hb.
    subst img. simpl in *. rewrite lookup_replicate_2 by lia. reflexivity.
Qed.

Lemma Set_dimensions_witness :
  fst (Set_ 0 5 5 (Some small_image)) = Fail InvalidDimension /\
  exists img,
    Set_ 2 3 4 (Some small_image) = (Ok tt, Some img) /\
    depth img = 2 /\ rows img = 3 /\ cols img = 4 /\
    length (samples img) = Z.to_nat (2 * 3 * 4) /\
    forall s r' c', 0 <= s < 2 -> 0 <= r' < 3 -> 0 <= c' < 4 ->
      fst (Index s r' c' (Some img)) = Undefined.
Proof.
  split.
  - apply (proj1 (Set_dimensions 0 5 5 (Some small_image))). lia.
  - apply (proj2 (proj2 (Set_dimensions 2 3 4 (Some small_image)))). lia.
Defined.

(** Claim C8.  Whichever request fails, with whichever of the three
    failures, the volume after it is the volume before it. *)
Theorem failure_keeps_state (o : operation) (vol : t) (e : error) :
  fst (run o vol) = Fail e -> snd (run o vol) = vol.
Proof.
  destruct o as [d r c | v | s r c | s r c v |]; simpl; unfold mbind, M_bind.
  - unfold Set_. destruct ((0 <? d) && (0 <? r) && (0 <? c)); simpl;
      [discriminate | reflexivity].
  - destruct vol as [img |]; simpl; [discriminate | reflexivity].
  - pose proof (Index_state s r c vol) as E.
    destruct (Index s r c vol) as [[x | e' |] vol']; simpl in *; auto.
  - destruct vol as [img |]; simpl; [| reflexivity].
    destruct (valid img s r c); simpl; [discriminate | reflexivity].
  - pose proof (readonly_maximum vol) as E.
    destruct (maximum vol) as [[x | e' |] vol']; simpl in *; auto.
Qed.

Lemma failure_keeps_state_witness :
  fst (run (Allocate 0 5 5) (Some small_image)) = Fail InvalidDimension /\
  snd (run (Allocate 0 5 5) (Some small_image)) = Some small_image.
Proof.
  split; [reflexivity |].
  apply (failure_keeps_state (Allocate 0 5 5) (Some small_image) InvalidDimension).
  reflexivity.
Defined.

(** Claim C9.  On every allocated and fully defined volume the scan of
    [main], which takes cell (0,0,0) before the loop and visits it again in
    the loop, and the scan that starts with the first cell inside the loop
    give the same result and the same volume. *)
Theorem scans_agree (img : image) :
  wf img -> fully_defined img ->
  maximum_first_in_loop (Some img) = maximum (Some img).
Proof.
  intros W F.
  destruct (maximum_largest img W F) as (m & E & _ & L).
  destruct (maximum_first_in_loop_largest img W F) as (m' & E' & _ & L').
  rewrite E, E'. rewrite (largest_unique img m m' L L'). reflexivity.
Qed.

Lemma scans_agree_witness :
  wf small_image /\ fully_defined small_image /\
  maximum_first_in_loop (Some small_image) = maximum (Some small_image).
Proof.
  split; [exact small_image_wf |].
  split; [exact small_image_fully_defined |].
  apply (scans_agree small_image);
    [exact small_image_wf | exact small_image_fully_defined].
Defined.

(** Claim C10.  The scan only reads: on every allocated and fully defined
    volume it completes, and afterwards the dimensions and the sample read
    at every valid coordinate triple are what they were before. *)
Theorem maximum_read_only (img : image) :
  wf img -> fully_defined img ->
  exists m vol',
    maximum (Some img) = (Ok m, vol') /\
    fst (GetDimensions vol') = fst (GetDimensions (Some img)) /\
    forall s r c,
      0 <= s < depth img -> 0 <= r < rows img -> 0 <= c < cols img ->
      fst (Index s r c vol') = fst (Index s r c (Some img)).
Proof.
  intros W F.
  destruct (maximum_largest img W F) as (m & E & _).
  pose proof (readonly_maximum (Some img)) as R.
  destruct (maximum (Some img)) as [res vol'] eqn:Em. simpl in R. subst vol'.
  injection E as ->.
  exists m, (Some img). auto.
Qed.

Lemma maximum_read_only_witness :
  wf small_image /\ fully_defined small_image /\
  exists m vol',
    maximum (Some small_image) = (Ok m, vol') /\
    fst (GetDimensions vol') = fst (GetDimensions (Some small_image)) /\
    forall s r c,
      0 <= s < depth small_image -> 0 <= r < rows small_image ->
      0 <= c < cols small_image ->
      fst (Index s r c vol') = fst (Index s r c (Some small_image)).
Proof.
  split; [exact small_image_wf |].
  split; [exact small_image_fully_defined |].
  apply (maximum_read_only small_image);
    [exact small_image_wf | exact small_image_fully_defined].
Defined.

(** ** Further properties of the scan *)

(** *** Runs that cannot fail *)

Lemma unfailing_ret {A : Type} (a : A) (vol : t) (Q : A -> Prop) :
  Q a -> unfailing (mret a) vol Q.
Proof. intros H. split; [reflexivity | exact H]. Qed.

Lemma unfailing_bind {A B : Type} (m : M A) (f : A -> M B) (vol : t)
    (P : A -> Prop) (Q : B -> Prop) :
  unfailing m vol P ->
  (forall a, P a -> unfailing (f a) vol Q) ->
  unfailing (m ≫= f) vol Q.
Proof.
  unfold unfailing at 1 3. unfold mbind, M_bind. intros Hm Hf.
  destruct (m vol) as [[a | e |] vol'].
  - destruct Hm as [-> Pa]. apply Hf. exact Pa.
  - exact Hm.
  - exact Hm.
Qed.

Lemma unfailing_iterate {A : Type} (Inv : Z -> A -> Prop) (body : Z -> A -> M A)
    (vol : t) (n : nat) :
  forall (i : Z) (a : A),
  Inv i a ->
  (forall j b, i <= j < i + Z.of_nat n -> Inv j b ->
     unfailing (body j b) vol (Inv (j + 1))) ->
  unfailing (iterate n i body a) vol (Inv (i + Z.of_nat n)).
Proof.
  induction n as [| n IH]; intros i a Ha Hbody.
  - simpl. apply unfailing_ret. replace (i + Z.of_nat 0) with i by lia. exact Ha.
  - simpl iterate. eapply unfailing_bind.
    + apply (Hbody i a); [lia | exact Ha].
    + intros a' Ha'.
      replace (i + Z.of_nat (S n)) with ((i + 1) + Z.of_nat n) by lia.
      apply IH; [exact Ha' |].
      intros j b Hj. apply Hbody. lia.
Qed.

Lemma unfailing_for_loop {A : Type} (Inv : Z -> A -> Prop) (body : Z -> A -> M A)
    (vol : t) (lo hi : Z) (a : A) :
  lo <= hi ->
  Inv lo a ->
  (forall j b, lo <= j < hi -> Inv j b -> unfailing (body j b) vol (Inv (j + 1))) ->
  unfailing (for_loop lo hi body a) vol (Inv hi).
Proof.
  intros Hle Ha Hbody. unfold for_loop.
  replace hi with (lo + Z.of_nat (Z.to_nat (hi - lo))) at 2 by lia.
  apply unfailing_iterate; [exact Ha |].
  intros j b Hj. apply Hbody. lia.
Qed.

Lemma unfailing_Index (img : image) (s r c : Z) :
  valid img s r c = true ->
  unfailing (Index s r c) (Some img)
    (fun x => samples img !! Z.to_nat (offset img s r c) = Some (Some x)).
Proof.
  intros V. unfold unfailing, Index. rewrite V.
  destruct (samples img !! Z.to_nat (offset img s r c)) as [[x |] |];
    [split; reflexivity | reflexivity | reflexivity].
Qed.

Lemma populated_below_next (img : image) (s r c x : Z) :
  valid img s r c = true ->
  samples img !! Z.to_nat (offset img s r c) = Some (Some x) ->
  populated_below img (offset img s r c) ->
  populated_below img (offset img s r c + 1).
Proof.
  intros V E Hp s' r' c' V' Hlt.
  destruct (Z.eq_dec (offset img s' r' c') (offset img s r c)) as [Eo | N].
  - rewrite Eo. exists x. exact E.
  - apply Hp; [exact V' | lia].
Qed.

(** Every buffer slot of a well-formed image is the cell of a valid
    coordinate triple. *)
Lemma slot_is_cell (img : image) (i : nat) :
  wf img -> (i < length (samples img))%nat ->
  exists s r c, valid img s r c = true /\ Z.to_nat (offset img s r c) = i.
Proof.
  intros [Hd Hr Hc Hl _] Hi. rewrite Hl in Hi.
  set (z := Z.of_nat i).
  assert (0 <= z < depth img * rows img * cols img) as Hz by (subst z; lia).
  pose proof (Z.div_mod z (cols img) ltac:(lia)) as E1.
  pose proof (Z.mod_pos_bound z (cols img) Hc) as B1.
  pose proof (Z.div_mod (z / cols img) (rows img) ltac:(lia)) as E2.
  pose proof (Z.mod_pos_bound (z / cols img) (rows img) Hr) as B2.
  assert (0 <= z / cols img) as P1 by (apply Z.div_pos; lia).
  assert (0 <= z / cols img / rows img) as P2 by (apply Z.div_pos; lia).
  assert (z / cols img < depth img * rows img) as U1
    by (apply Z.div_lt_upper_bound; nia).
  assert (z / cols img / rows img < depth img) as U2
    by (apply Z.div_lt_upper_bound; nia).
  exists (z / cols img / rows img), ((z / cols img) mod rows img), (z mod cols img).
  split.
  - apply valid_spec. lia.
  - unfold offset.
    replace ((z / cols img / rows img * rows img + (z / cols img) mod rows img)
             * cols img + z mod cols img) with z by nia.
    subst z. lia.
Qed.

Lemma populated_fully_defined (img : image) :
  wf img ->
  populated_below img (depth img * rows img * cols img) ->
  fully_defined img.
Proof.
  intros W Hp. apply Forall_lookup. intros i o Ho.
  destruct (slot_is_cell img i W (lookup_lt_Some _ _ _ Ho)) as (s & r & c & V & Ei).
  destruct (Hp s r c V (proj2 (offset_bounds img s r c V))) as [x Hx].
  rewrite Ei, Ho in Hx. injection Hx as ->. eexists. reflexivity.
Qed.

(** *** The scan on any allocated image *)

Section ScanAnyImage.

Variable img : image.
Hypothesis W : wf img.

Lemma unfailing_nested_loops {A : Type} (Inv : Z -> A -> Prop)
    (body : Z -> Z -> Z -> A -> M A) (a : A) :
  Inv 0 a ->
  (forall s r c b, valid img s r c = true -> Inv (offset img s r c) b ->
     unfailing (body s r c b) (Some img) (Inv (offset img s r (c + 1)))) ->
  unfailing
    (for_loop 0 (depth img) (fun s b =>
       for_loop 0 (rows img) (fun r b =>
         for_loop 0 (cols img) (fun c b => body s r c b) b) b) a)
    (Some img) (Inv (depth img * rows img * cols img)).
Proof.
  intros Ha Hbody.
  pose proof (wf_depth img W) as Hd. pose proof (wf_rows img W) as Hr.
  pose proof (wf_cols img W) as Hc.
  rewrite <- (offset_end img).
  apply (unfailing_for_loop (fun s b => Inv (offset img s 0 0) b)); [lia | exact Ha |].
  intros s b Hs Hb. rewrite <- (offset_next_slice img).
  apply (unfailing_for_loop (fun r b => Inv (offset img s r 0) b)); [lia | exact Hb |].
  intros r b' Hr' Hb'. rewrite <- (offset_next_row img).
  apply (unfailing_for_loop (fun c b => Inv (offset img s r c) b)); [lia | exact Hb' |].
  intros c b'' Hc' Hb''. apply Hbody; [| exact Hb''].
  apply valid_spec. lia.
Qed.

(** The scan of [main] never fails on an allocated image, and when it gives
    a value it has found a sample in every cell. *)
Lemma maximum_unfailing :
  unfailing maximum (Some img)
    (fun m => is_sample m /\
              populated_below img (depth img * rows img * cols img)).
Proof.
  unfold maximum.
  eapply unfailing_bind; [apply unfailing_Index; exact (origin_valid img W) |].
  intros first _.
  eapply unfailing_bind with (P := fun d => d = (cols img, rows img, depth img));
    [split; reflexivity |].
  intros dims ->.
  apply (unfailing_nested_loops
           (fun k m => is_sample m /\ populated_below img k)
           (fun s r c m => x ← Index s r c;
              if x >? m then (y ← Index s r c; mret (to_ushort y)) else mret m)).
  - split; [apply to_ushort_is_sample |].
    intros s r c V Hlt. pose proof (offset_bounds img s r c V). lia.
  - intros s r c m V [Hm Hp]. rewrite (offset_next_col img).
    eapply unfailing_bind; [apply unfailing_Index; exact V |].
    intros x Hx. simpl.
    pose proof (populated_below_next img s r c x V Hx Hp) as Hnext.
    destruct (x >? m).
    + eapply unfailing_bind; [apply unfailing_Index; exact V |].
      intros y _. simpl. apply unfailing_ret.
      split; [apply to_ushort_is_sample | exact Hnext].
    + apply unfailing_ret. split; [exact Hm | exact Hnext].
Qed.

End ScanAnyImage.

(** *** Images after a fill and after a store *)

Lemma filled_fully_defined (img : image) (v : Z) : fully_defined (filled img v).
Proof.
  unfold fully_defined, filled. simpl.
  apply Forall_fmap, Forall_true. intros o. simpl. eexists. reflexivity.
Qed.

Lemma sample_of_filled (img : image) (v s r c : Z) :
  wf img -> valid img s r c = true ->
  sample_of (filled img v) s r c = to_ushort v.
Proof.
  intros W V. unfold sample_of, filled. simpl.
  change (offset _ s r c) with (offset img s r c).
  rewrite list_lookup_fmap.
  destruct (lookup_lt_is_Some_2 _ _ (offset_in_buffer img s r c W V)) as [o ->].
  reflexivity.
Qed.

Lemma stored_fully_defined (img : image) (s r c v : Z) :
  fully_defined img -> fully_defined (stored img s r c v).
Proof.
  intros F. unfold fully_defined, stored. simpl.
  apply Forall_insert; [exact F | eexists; reflexivity].
Qed.

Lemma sample_of_stored_same (img : image) (s r c v : Z) :
  wf img -> valid img s r c = true ->
  sample_of (stored img s r c v) s r c = to_ushort v.
Proof.
  intros W V. unfold sample_of, stored. simpl.
  change (offset _ s r c) with (offset img s r c).
  rewrite list_lookup_insert_eq by (apply offset_in_buffer; assumption).
  reflexivity.
Qed.

Lemma sample_of_stored_other (img : image) (s r c v s' r' c' : Z) :
  valid img s r c = true -> valid img s' r' c' = true ->
  offset img s' r' c' <> offset img s r c ->
  sample_of (stored img s r c v) s' r' c' = sample_of img s' r' c'.
Proof.
  intros V V' N. unfold sample_of, stored. simpl.
  change (offset _ s' r' c') with (offset img s' r' c').
  pose proof (offset_bounds img s r c V). pose proof (offset_bounds img s' r' c' V').
  rewrite list_lookup_insert_ne by lia. reflexivity.
Qed.

(** *** The properties *)

(** Extra X1.  On every volume the operations can produce, the scan fails
    in one way only: with [EmptyVolume], on the volume never allocated.  On
    an allocated volume its loops stay inside the extents, so no read is
    out of bounds. *)
Theorem maximum_fails_only_unallocated (vol : t) (e : error) :
  reachable vol -> fst (maximum vol) = Fail e -> vol = None /\ e = EmptyVolume.
Proof.
  intros R E. destruct vol as [img |].
  - pose proof (maximum_unfailing img (reachable_wf _ R img eq_refl)) as H.
    unfold unfailing in H.
    destruct (maximum (Some img)) as [[m | e' |] vol']; simpl in E;
      [discriminate E | contradiction | discriminate E].
  - simpl in E. injection E as <-. split; reflexivity.
Qed.

Lemma maximum_fails_only_unallocated_witness :
  reachable None /\ fst (maximum None) = Fail EmptyVolume /\
  (@None image = None /\ EmptyVolume = EmptyVolume).
Proof.
  split; [exact reachable_fresh |]. split; [reflexivity |].
  apply (maximum_fails_only_unallocated None EmptyVolume);
    [exact reachable_fresh | reflexivity].
Defined.

(** Extra X2.  On an allocated volume the scan gives a value exactly when
    every cell is populated: it reads every cell, and with one cell left
    unpopulated it has no defined result and leaves the volume as it was. *)
Theorem maximum_defined_iff (img : image) :
  wf img ->
  ((exists m, fst (maximum (Some img)) = Ok m) <-> fully_defined img) /\
  (~ fully_defined img -> maximum (Some img) = (Undefined, Some img)).
Proof.
  intros W.
  pose proof (maximum_unfailing img W) as H. unfold unfailing in H.
  assert ((exists m, fst (maximum (Some img)) = Ok m) -> fully_defined img) as Hok.
  { intros [m E]. destruct (maximum (Some img)) as [[m' | e |] vol'];
      simpl in E; [| contradiction | discriminate E].
    apply populated_fully_defined; [exact W | apply H]. }
  split; [split; [exact Hok |] |].
  - intros F. destruct (maximum_largest img W F) as (m & E & _).
    exists m. rewrite E. reflexivity.
  - intros NF. destruct (maximum (Some img)) as [[m | e |] vol'].
    + exfalso. apply NF, Hok. exists m. reflexivity.
    + contradiction.
    + rewrite H. reflexivity.
Qed.

Lemma blank_image_wf : wf blank_image.
Proof.
  constructor; simpl; try lia.
  repeat (apply Forall_cons_2; [intros x E; discriminate E |]).
  apply Forall_nil_2.
Defined.

Lemma maximum_defined_iff_witness :
  wf blank_image /\
  ((exists m, fst (maximum (Some blank_image)) = Ok m) <->
   fully_defined blank_image) /\
  (~ fully_defined blank_image ->
   maximum (Some blank_image) = (Undefined, Some blank_image)).
Proof.
  split; [exact blank_image_wf |].
  apply (maximum_defined_iff blank_image). exact blank_image_wf.
Defined.

(** Extra X4.  With positive dimensions and a sample value v, setting the
    dimensions, filling with v and scanning gives v, whatever the volume was
    before. *)
Theorem fill_then_maximum (d r c v : Z) (vol : t) :
  0 < d -> 0 < r -> 0 < c -> is_sample v ->
  fst ((Set_ d r c;; FillInWith v;; maximum) vol) = Ok v.
Proof.
  intros Hd Hr Hc Hv.
  unfold mbind, M_bind. rewrite Set_ok by assumption. rewrite FillInWith_ok.
  pose proof (Set_wf d r c Hd Hr Hc) as W0.
  set (img0 := mk_image d r c _) in *.
  change (mk_image (depth img0) (rows img0) (cols img0) _) with (filled img0 v).
  pose proof (FillInWith_wf img0 v W0) as W.
  change (mk_image (depth img0) (rows img0) (cols img0) _) with (filled img0 v) in W.
  destruct (maximum_largest (filled img0 v) W (filled_fully_defined img0 v))
    as (m & E & _ & (s & r' & c' & V & Em) & _).
  rewrite E. simpl.
  rewrite (sample_of_filled img0 v s r' c' W0 V) in Em.
  rewrite to_ushort_sample in Em by exact Hv. rewrite Em. reflexivity.
Qed.

Lemma fill_then_maximum_witness :
  fst ((Set_ 2 3 4;; FillInWith 7;; maximum) (Some small_image)) = Ok 7.
Proof.
  apply (fill_then_maximum 2 3 4 7 (Some small_image)); unfold is_sample; lia.
Defined.

(** Extra X5.  On an allocated and fully defined volume whose scan gives m,
    storing a sample value v at a valid cell and scanning again gives a
    value between v and the larger of m and v; it is exactly the larger of
    the two when the cell written did not hold m before. *)
Theorem write_then_maximum (img : image) (s r c v m x : Z) :
  wf img -> fully_defined img ->
  0 <= s < depth img -> 0 <= r < rows img -> 0 <= c < cols img ->
  is_sample v ->
  fst (maximum (Some img)) = Ok m ->
  fst (Index s r c (Some img)) = Ok x ->
  exists m',
    fst ((Index_assign s r c v;; maximum) (Some img)) = Ok m' /\
    v <= m' <= Z.max m v /\
    (x < m -> m' = Z.max m v).
Proof.
  intros W F Hs Hr Hc Hv Em Ex.
  assert (valid img s r c = true) as V by (apply valid_spec; lia).
  destruct (maximum_largest img W F) as (m0 & E0 & _ & (s0 & r0 & c0 & V0 & A0) & U).
  rewrite E0 in Em. simpl in Em. injection Em as ->.
  rewrite (Index_defined img s r c W F V) in Ex. simpl in Ex. injection Ex as <-.
  pose proof (Index_assign_wf img (Z.to_nat (offset img s r c)) v W) as W'.
  change (mk_image _ _ _ _) with (stored img s r c v) in W'.
  pose proof (stored_fully_defined img s r c v F) as F'.
  destruct (maximum_largest (stored img s r c v) W' F')
    as (m' & E' & _ & (s1 & r1 & c1 & V1 & A1) & U').
  exists m'. split.
  { unfold mbind, M_bind. rewrite (Index_assign_ok img s r c v V).
    change (mk_image _ _ _ _) with (stored img s r c v). rewrite E'. reflexivity. }
  change (valid (stored img s r c v) s1 r1 c1) with (valid img s1 r1 c1) in V1.
  assert (sample_of (stored img s r c v) s r c = v) as Same
    by (rewrite sample_of_stored_same, to_ushort_sample; auto).
  assert (v <= m') as Lo by (rewrite <- Same; apply U'; exact V).
  assert (m' <= Z.max m v) as Hi.
  { destruct (Z.eq_dec (offset img s1 r1 c1) (offset img s r c)) as [Eo | N].
    - apply offset_inj in Eo as (-> & -> & ->); [| exact V1 | exact V]. lia.
    - rewrite (sample_of_stored_other img s r c v s1 r1 c1 V V1 N) in A1.
      specialize (U s1 r1 c1 V1). lia. }
  split; [lia |].
  intros Hx.
  assert (offset img s0 r0 c0 <> offset img s r c) as N.
  { intros Eo. apply offset_inj in Eo as (-> & -> & ->); [| exact V0 | exact V]. lia. }
  pose proof (U' s0 r0 c0 V0) as Hm.
  rewrite (sample_of_stored_other img s r c v s0 r0 c0 V V0 N), A0 in Hm. lia.
Qed.

Lemma write_then_maximum_witness :
  exists m',
    fst ((Index_assign 0 0 0 5;; maximum) (Some small_image)) = Ok m' /\
    5 <= m' <= Z.max 9 5 /\
    (3 < 9 -> m' = Z.max 9 5).
Proof.
  apply (write_then_maximum small_image 0 0 0 5 9 3);
    [exact small_image_wf | exact small_image_fully_defined
    | simpl; lia | simpl; lia | simpl; lia | unfold is_sample; lia
    | reflexivity | reflexivity].
Defined.

(** ** The text on the screen *)

Example show_maximum_sevens :
  fst (show_maximum sevens) = Ok ("maximum = 7" +:+ endl).
Proof. reflexivity. Qed.

Lemma append_cons (a : Ascii.ascii) (s u : string) :
  String a s +:+ u = String a (s +:+ u).
Proof. reflexivity. Qed.

Lemma append_nil (u : string) : "" +:+ u = u.
Proof. reflexivity. Qed.

Lemma free_of_append (a : Ascii.ascii) (s u : string) :
  free_of a (s +:+ u) = free_of a s && free_of a u.
Proof.
  induction s as [| b s IH].
  - reflexivity.
  - rewrite append_cons. simpl. rewrite IH. apply andb_assoc.
Qed.

(** Decimal digits and the sign are the only characters of a printed
    number. *)
Lemma free_of_uint (a : Ascii.ascii) (d : Decimal.uint) :
  free_of a "-0123456789" = true ->
  free_of a (DecimalString.NilEmpty.string_of_uint d) = true.
Proof.
  intros H. simpl in H.
  repeat (apply andb_prop in H as [? H]).
  induction d as [| d IH | d IH | d IH | d IH | d IH | d IH | d IH | d IH
                  | d IH | d IH]; simpl;
    [reflexivity | rewrite IH, andb_true_r; assumption ..].
Qed.

Lemma free_of_put_int (a : Ascii.ascii) (n : Z) :
  free_of a "-0123456789" = true -> free_of a (put_int n) = true.
Proof.
  intros H. pose proof (fun d => free_of_uint a d H) as Hd.
  assert (forall d, free_of a (DecimalString.NilZero.string_of_uint d) = true) as Hz.
  { intros d. destruct d; try apply (Hd (_ d)).
    simpl in H. apply andb_prop in H as [_ H]. apply andb_prop in H as [H _].
    simpl. rewrite H. reflexivity. }
  unfold put_int. destruct (Z.to_int n) as [d | d]; simpl.
  - apply Hz.
  - rewrite Hz, andb_true_r. simpl in H. apply andb_prop in H as [H _]. exact H.
Qed.

(** Reading as a C string keeps a NUL-free prefix whole. *)
Lemma c_str_append (s u : string) :
  free_of Ascii.zero s = true -> c_str (s +:+ u) = s +:+ c_str u.
Proof.
  induction s as [| b s IH]; intros H.
  - reflexivity.
  - simpl in H. apply andb_prop in H as [Hb Hs].
    rewrite !append_cons. simpl.
    destruct (Ascii.eqb b Ascii.zero); [discriminate Hb |].
    rewrite IH by exact Hs. reflexivity.
Qed.

Lemma to_int32_sample (z : Z) : is_sample z -> to_int32 z = z.
Proof.
  unfold is_sample, to_int32. intros H.
  rewrite Z.mod_small by lia. lia.
Qed.

Lemma put_int_inj (n n' : Z) : put_int n = put_int n' -> n = n'.
Proof.
  unfold put_int. intros E. apply DecimalZ.to_int_inj.
  assert (forall z, DecimalString.NilZero.int_of_string
                      (DecimalString.NilZero.string_of_int (Z.to_int z))
                    = Some (Z.to_int z)) as Hround.
  { intros z. apply DecimalString.NilZero.isi.
    - destruct z as [| p | p]; simpl; try discriminate.
      intros [= Hp]. exact (DecimalPos.Unsigned.to_uint_nonnil p Hp).
    - destruct z as [| p | p]; simpl; try discriminate.
      intros [= Hp]. exact (DecimalPos.Unsigned.to_uint_nonnil p Hp). }
  pose proof (Hround n) as Hn. rewrite E, Hround in Hn.
  injection Hn as Hn. symmetry. exact Hn.
Qed.

(** Two newline-free strings that agree once a newline is put after them
    are the same. *)
Lemma append_endl_inj (s u : string) :
  free_of newline s = true -> free_of newline u = true ->
  s +:+ endl = u +:+ endl -> s = u.
Proof.
  revert u. induction s as [| a s IH]; intros [| b u] Hs Hu E.
  - reflexivity.
  - rewrite append_nil, append_cons in E. unfold endl in E.
    injection E as Eb _. subst b. simpl in Hu.
    rewrite ?Ascii.eqb_refl in Hu. discriminate Hu.
  - rewrite append_nil, append_cons in E. unfold endl in E.
    injection E as Ea _. subst a. simpl in Hs.
    rewrite ?Ascii.eqb_refl in Hs. discriminate Hs.
  - rewrite !append_cons in E. injection E as -> E.
    simpl in Hs, Hu. apply andb_prop in Hs as [_ Hs]. apply andb_prop in Hu as [_ Hu].
    rewrite (IH u Hs Hu E). reflexivity.
Qed.

(** The stream content read as a C string: everything but the final NUL. *)
Lemma c_str_menu_text (maximum : Z) :
  c_str (menu_text maximum)
  = "maximum = " +:+ put_int (to_int32 maximum) +:+ endl.
Proof.
  unfold menu_text.
  rewrite c_str_append by reflexivity.
  rewrite c_str_append by (apply free_of_put_int; reflexivity).
  rewrite c_str_append by reflexivity.
  reflexivity.
Qed.

(** Extra X6.  The text handed to the text actor is "maximum = ", the
    decimal digits of the number and a newline: the NUL that [ends] puts at
    the end of the stream is where the C string stops, and nothing before
    it is lost. *)
Theorem menu_input_text (maximum : Z) :
  menu_input maximum = "maximum = " +:+ put_int (to_int32 maximum) +:+ endl.
Proof.
  unfold menu_input. rewrite c_str_menu_text. reflexivity.
Qed.

(** Extra X7.  The text on the screen tells the maximum: two sample values
    with the same text are the same value. *)
Theorem menu_input_inj (m m' : Z) :
  is_sample m -> is_sample m' -> menu_input m = menu_input m' -> m = m'.
Proof.
  intros Hm Hm' E. unfold menu_input in E. rewrite !c_str_menu_text in E.
  rewrite (to_int32_sample m Hm), (to_int32_sample m' Hm') in E.
  apply (inj (String.append "maximum = ")) in E.
  apply append_endl_inj in E; try (apply free_of_put_int; reflexivity).
  apply put_int_inj. exact E.
Qed.

Lemma menu_input_inj_witness :
  is_sample 7 /\ is_sample (3 + 4) /\ menu_input 7 = menu_input (3 + 4) /\
  7 = 3 + 4.
Proof.
  assert (is_sample 7) as H7 by (unfold is_sample; lia).
  assert (is_sample (3 + 4)) as H34 by (unfold is_sample; lia).
  split; [exact H7 |]. split; [exact H34 |]. split; [reflexivity |].
  apply (menu_input_inj 7 (3 + 4)); [exact H7 | exact H34 | reflexivity].
Defined.

(** Extra X8.  On an allocated and fully defined volume, scanning and
    making the text gives "maximum = ", the decimal digits of the largest
    sample in the volume and a newline, and leaves the volume as it was. *)
Theorem show_maximum_largest (img : image) :
  wf img -> fully_defined img ->
  exists m,
    show_maximum (Some img) = (Ok ("maximum = " +:+ put_int m +:+ endl), Some img) /\
    (forall s r c x, fst (Index s r c (Some img)) = Ok x -> x <= m) /\
    (exists s r c, fst (Index s r c (Some img)) = Ok m).
Proof.
  intros W F.
  destruct (maximum_largest img W F) as (m & E & Hm & (s & r & c & V & A) & U).
  exists m. split; [| split].
  - unfold show_maximum, mbind, M_bind. rewrite E.
    unfold mret, M_ret, menu_input.
    rewrite c_str_menu_text, (to_int32_sample m Hm).
    reflexivity.
  - intros s' r' c' x Hx. destruct (valid img s' r' c') eqn:V'.
    + rewrite (Index_defined img s' r' c' W F V') in Hx. simpl in Hx.
      injection Hx as <-. apply U. exact V'.
    + rewrite (Index_invalid img s' r' c' V') in Hx. discriminate Hx.
  - exists s, r, c. rewrite (Index_defined img s r c W F V). simpl.
    rewrite A. reflexivity.
Qed.

Lemma show_maximum_largest_witness :
  wf small_image /\ fully_defined small_image /\
  exists m,
    show_maximum (Some small_image)
    = (Ok ("maximum = " +:+ put_int m +:+ endl), Some small_image) /\
    (forall s r c x, fst (Index s r c (Some small_image)) = Ok x -> x <= m) /\
    (exists s r c, fst (Index s r c (Some small_image)) = Ok m).
Proof.
  split; [exact small_image_wf |].
  split; [exact small_image_fully_defined |].
  apply (show_maximum_largest small_image);
    [exact small_image_wf | exact small_image_fully_defined].
Defined.

(** ** The unchecked accessor of the reference implementation *)

Lemma maximum_scan : maximum = scan Index.
Proof. reflexivity. Qed.

Lemma buffer_length (img : image) :
  wf img -> Z.of_nat (length (samples img)) = depth img * rows img * cols img.
Proof.
  intros W. rewrite (wf_length img W).
  pose proof (wf_depth img W). pose proof (wf_rows img W).
  pose proof (wf_cols img W). nia.
Qed.

Lemma slot_inside (img : image) (s r c : Z) :
  wf img ->
  0 <= offset img s r c < depth img * rows img * cols img ->
  slot img s r c = Some (Z.to_nat (offset img s r c)).
Proof.
  intros W H. unfold slot. cbv zeta. rewrite (buffer_length img W).
  rewrite (proj2 (Z.leb_le _ _) (proj1 H)), (proj2 (Z.ltb_lt _ _) (proj2 H)).
  reflexivity.
Qed.


(** At a valid coordinate triple the unchecked accessor and the checked one
    are the same, for reading and for storing. *)
Lemma Index_ref_valid (img : image) (s r c : Z) :
  wf img -> valid img s r c = true ->
  Index_ref s r c (Some img) = Index s r c (Some img).
Proof.
  intros W V. unfold Index_ref, Index.
  rewrite (slot_inside img s r c W (offset_bounds img s r c V)), V.
  reflexivity.
Qed.



Lemma Index_ref_state (s r c : Z) (vol : t) : snd (Index_ref s r c vol) = vol.
Proof.
  unfold Index_ref. destruct vol as [img |]; [| reflexivity].
  destruct (slot img s r c) as [k |]; [| reflexivity].
  destruct (samples img !! k) as [[x |] |]; reflexivity.
Qed.






(** ** The scan over either accessor *)

Lemma bind_ext_at {A B : Type} (m m' : M A) (f f' : A -> M B) (vol : t) :
  m vol = m' vol ->
  (forall a vol', m' vol = (Ok a, vol') -> f a vol' = f' a vol') ->
  (m ≫= f) vol = (m' ≫= f') vol.
Proof.
  intros Em Ef. unfold mbind, M_bind. rewrite Em.
  destruct (m' vol) as [[a | e |] vol'];
    [apply Ef; reflexivity | reflexivity | reflexivity].
Qed.

Lemma iterate_ext {A : Type} (body body' : Z -> A -> M A) (vol : t) (n : nat) :
  forall (i : Z) (a : A),
  (forall j b, i <= j < i + Z.of_nat n -> body j b vol = body' j b vol) ->
  (forall j b, readonly (body' j b)) ->
  iterate n i body a vol = iterate n i body' a vol.
Proof.
  induction n as [| n IH]; intros i a Hbody Hro.
  - reflexivity.
  - simpl iterate. apply bind_ext_at.
    + apply Hbody. lia.
    + intros a' vol' E. pose proof (Hro i a vol) as Hs.
      rewrite E in Hs. simpl in Hs. subst vol'.
      apply IH; [| exact Hro].
      intros j b Hj. apply Hbody. lia.
Qed.

Lemma for_loop_ext {A : Type} (body body' : Z -> A -> M A) (vol : t)
    (lo hi : Z) (a : A) :
  (forall j b, lo <= j < hi -> body j b vol = body' j b vol) ->
  (forall j b, readonly (body' j b)) ->
  for_loop lo hi body a vol = for_loop lo hi body' a vol.
Proof.
  intros Hbody Hro. unfold for_loop. apply iterate_ext; [| exact Hro].
  intros j b Hj. apply Hbody. lia.
Qed.

Lemma readonly_scan_body (s r c m : Z) :
  readonly (x ← Index s r c;
            if x >? m then (y ← Index s r c; mret (to_ushort y)) else mret m).
Proof.
  apply readonly_bind; [apply readonly_Index | intros x].
  destruct (x >? m).
  - apply readonly_bind; [apply readonly_Index | intros y; apply readonly_ret].
  - apply readonly_ret.
Qed.

(** Extra X9.  On an allocated volume every read of the scan is at a valid
    coordinate triple: run over the unchecked accessor of the reference
    implementation, the scan gives the same outcome and the same volume as
    over the checked one, populated or not. *)
Theorem scan_Index_ref (img : image) :
  wf img -> scan Index_ref (Some img) = maximum (Some img).
Proof.
  intros W. rewrite maximum_scan. unfold scan.
  apply bind_ext_at;
    [apply Index_ref_valid; [exact W | exact (origin_valid img W)] |].
  intros first vol' E.
  pose proof (Index_state 0 0 0 (Some img)) as Hs. rewrite E in Hs.
  simpl in Hs. subst vol'. clear E.
  apply bind_ext_at; [reflexivity |].
  intros dims vol' E. simpl in E. injection E as <- <-.
  apply for_loop_ext;
    [| intros s m; apply readonly_for_loop; intros r m';
       apply readonly_for_loop; intros c m''; apply readonly_scan_body].
  intros s m Hs.
  apply for_loop_ext;
    [| intros r m'; apply readonly_for_loop; intros c m'';
       apply readonly_scan_body].
  intros r m' Hr.
  apply for_loop_ext; [| intros c m''; apply readonly_scan_body].
  intros c m'' Hc.
  assert (valid img s r c = true) as V by (apply valid_spec; lia).
  apply bind_ext_at; [apply Index_ref_valid; assumption |].
  intros x vol' E.
  pose proof (Index_state s r c (Some img)) as Hst. rewrite E in Hst.
  simpl in Hst. subst vol'. clear E.
  destruct (x >? m''); [| reflexivity].
  apply bind_ext_at; [apply Index_ref_valid; assumption |].
  intros y vol' _. reflexivity.
Qed.

Lemma scan_Index_ref_witness :
  wf blank_image /\
  scan Index_ref (Some blank_image) = maximum (Some blank_image).
Proof.
  split; [exact blank_image_wf |].
  apply (scan_Index_ref blank_image). exact blank_image_wf.
Defined.



